(** * routerman: routing and dispatch core

    Shallow embedding of the routing/dispatch engine of routerman:
    - the response model (hyper's [Response] with status, header map, body)
      and hyper's response [Builder];
    - [MethodRouter] of [src/method.rs] (method dispatch, [Allow] header);
    - the [IntoResponse] protocol of [src/response/mod.rs] and the tuple
      composition of [src/response/parts.rs];
    - [RequestService::call] and [RequestFuture::poll] of [src/router.rs];
    - the percent-decoding of path parameters of [src/request/ext.rs];
    - the rendering of route errors of [src/response/impls.rs].

    HTTP methods are modelled by their [Display] text; header names by their
    lower-case canonical form (hyper normalises [HeaderName]s to lower case);
    Rust [&str]/[String] by Rocq [string] (one [ascii] per byte). A
    [HashMap] is a [gmap]. *)

From Stdlib Require Import String Ascii.
From stdpp Require Import base list gmap strings sorting.

Local Open Scope string_scope.

(** Rust's [Result]. *)
Inductive result (T E : Type) :=
| Ok (t : T)
| Err (e : E).
Arguments Ok {T E} t.
Arguments Err {T E} e.

(* ------------------------------------------------------------------ *)
(** ** Responses and hyper's response builder *)

Record Response := mk_response {
  status : N;
  headers : list (string * string);
  body : string
}.

(** [Response::new(Body::empty())]: status 200, no headers, empty body. *)
Definition default_response : Response := mk_response 200 [] "".

Definition set_status (s : N) (r : Response) : Response :=
  mk_response s (headers r) (body r).

Definition set_body (b : string) (r : Response) : Response :=
  mk_response (status r) (headers r) b.

(** [HeaderMap::get]: the first value stored for a name. *)
Fixpoint header_get (hs : list (string * string)) (k : string) : option string :=
  match hs with
  | [] => None
  | (k', v) :: t => if String.eqb k k' then Some v else header_get t k
  end.

Fixpoint header_remove (hs : list (string * string)) (k : string)
    : list (string * string) :=
  match hs with
  | [] => []
  | (k', v) :: t => if String.eqb k k' then header_remove t k
                    else (k', v) :: header_remove t k
  end.

(** [HeaderMap::insert]: replaces every value of the name (in the position of
    the first one), or appends the name when absent. *)
Fixpoint header_insert (hs : list (string * string)) (k v : string)
    : list (string * string) :=
  match hs with
  | [] => [(k, v)]
  | (k', v') :: t => if String.eqb k k' then (k, v) :: header_remove t k
                     else (k', v') :: header_insert t k v
  end.

(** [HeaderMap::append]: adds a value, keeping the existing ones. *)
Definition header_append (hs : list (string * string)) (k v : string)
    : list (string * string) := hs ++ [(k, v)].

(** [HeaderValue]'s byte check ([is_valid] in the http crate):
    [b >= 32 && b != 127 || b == b'\t']. *)
Definition header_byte_ok (c : ascii) : bool :=
  let n := nat_of_ascii c in
  (Nat.leb 32 n && negb (Nat.eqb n 127)) || Nat.eqb n 9.

Fixpoint header_value_ok (s : string) : bool :=
  match s with
  | EmptyString => true
  | String c t => header_byte_ok c && header_value_ok t
  end.

(** [hyper::http::Error], kept as its display text. *)
Record HttpError := mk_http_error { http_error_msg : string }.

Definition invalid_header_value : HttpError :=
  mk_http_error "failed to parse header value".

(** Values handed to [Builder::header]: an already validated [HeaderValue]
    (conversion is infallible) or a [&str]/[String] to be checked. *)
Inductive HeaderInput :=
| HvValue (v : string)
| HvStr (s : string).

Definition header_value_try (v : HeaderInput) : HttpError + string :=
  match v with
  | HvValue s => inr s
  | HvStr s => if header_value_ok s then inr s else inl invalid_header_value
  end.

(** [HeaderName]'s byte table ([HEADER_CHARS] of the http crate): the token
    bytes (digits, letters and [!#$%&'*+-.^_`|~]) are kept, upper-case
    letters mapped to lower case; every other byte maps to [0], refused. *)
Definition header_name_char (c : ascii) : option ascii :=
  let n := nat_of_ascii c in
  if (Nat.leb 97 n && Nat.leb n 122) || (Nat.leb 48 n && Nat.leb n 57) then Some c
  else if Nat.leb 65 n && Nat.leb n 90 then Some (ascii_of_nat (n + 32))
  else if existsb (Ascii.eqb c) (list_ascii_of_string "!#$%&'*+-.^_`|~") then Some c
  else None.

Fixpoint header_name_map (s : string) : option string :=
  match s with
  | EmptyString => Some EmptyString
  | String c t =>
      match header_name_char c, header_name_map t with
      | Some c', Some t' => Some (String c' t')
      | _, _ => None
      end
  end.

(** [HeaderName::from_bytes] ([parse_hdr]): an empty name, or one of
    [MAX_HEADER_NAME_LEN = 1 << 16] bytes or more, is refused; otherwise
    every byte goes through [HEADER_CHARS]. *)
Definition header_name_parse (s : string) : option string :=
  let len := N.of_nat (String.length s) in
  if (0 <? len)%N && (len <? 65536)%N then header_name_map s else None.

(** [InvalidHeaderName], converted into [hyper::http::Error]. *)
Definition invalid_header_name : HttpError :=
  mk_http_error "invalid HTTP header name".

(** Names handed to [TryInto<HeaderName>]: a typed [HeaderName] (the
    conversion is the identity) or a [&str]/[String], parsed by
    [HeaderName::from_bytes]. *)
Inductive NameInput :=
| HnName (k : string)
| HnStr (s : string).

Definition header_name_try (k : NameInput) : HttpError + string :=
  match k with
  | HnName k => inr k
  | HnStr s => match header_name_parse s with Some k => inr k | None => inl invalid_header_name end
  end.

(** hyper's [response::Builder]: an in-progress response or the first error. *)
Definition Builder := (HttpError + Response)%type.

Definition builder_new : Builder := inr default_response.

Definition builder_status (s : N) (b : Builder) : Builder :=
  match b with inl e => inl e | inr r => inr (set_status s r) end.

Definition builder_header (k : string) (v : HeaderInput) (b : Builder) : Builder :=
  match b with
  | inl e => inl e
  | inr r =>
      match header_value_try v with
      | inl e => inl e
      | inr v' => inr (mk_response (status r) (header_append (headers r) k v') (body r))
      end
  end.

(** [Builder::body]: [Result<Response, http::Error>]. *)
Definition builder_body (bd : string) (b : Builder) : result Response HttpError :=
  match b with inl e => Err e | inr r => Ok (set_body bd r) end.

Definition ALLOW : string := "allow".
Definition LOCATION : string := "location".
Definition CONTENT_TYPE : string := "content-type".
Definition TEXT_PLAIN : string := "text/plain".

Definition INTERNAL_SERVER_ERROR : N := 500.
Definition METHOD_NOT_ALLOWED : N := 405.
Definition PERMANENT_REDIRECT : N := 308.
Definition NOT_FOUND : N := 404.
Definition BAD_REQUEST : N := 400.

(** [impl IntoResponse for hyper::http::Error] ([src/response/mod.rs]). *)
Definition http_error_into_response (e : HttpError) : Response :=
  set_status INTERNAL_SERVER_ERROR
    (set_body (http_error_msg e) default_response).

(* ------------------------------------------------------------------ *)
(** ** Requests *)

Record Uri := mk_uri {
  uri_scheme : option string;
  uri_authority : option string;
  (** [path_and_query]: the path and the optional query *)
  uri_path_and_query : option (string * option string)
}.

(** [Uri::path]: empty when the uri has no path-and-query component, and
    ["/"] for an empty path ([PathAndQuery::path]). *)
Definition uri_path (u : Uri) : string :=
  match uri_path_and_query u with
  | Some (p, _) => if String.eqb p "" then "/" else p
  | None => ""
  end.

Definition uri_query (u : Uri) : option string :=
  match uri_path_and_query u with Some (_, q) => q | None => None end.

(** [impl Display for Uri]. *)
Definition uri_to_string (u : Uri) : string :=
  match uri_scheme u with Some s => s ++ "://" | None => "" end
  ++ match uri_authority u with Some a => a | None => "" end
  ++ uri_path u
  ++ match uri_query u with Some q => "?" ++ q | None => "" end.

(** Per-request extensions the router touches. *)
Record Request := mk_request {
  req_method : string;
  req_uri : Uri;
  req_remote_addr : option string;
  req_params : option (gmap string string)
}.

(* ------------------------------------------------------------------ *)
(** ** [MethodRouter] ([src/method.rs]) *)

Section MethodRouterDef.
Context {Route : Type}.

Inductive MethodFallback :=
| FallbackRoute (r : Route)
| FallbackNone (allow_header : string).

Record MethodRouter := mk_method_router {
  handlers : gmap string Route;
  fallback : MethodFallback
}.

(** [MethodRouter::new]. *)
Definition method_router_new : MethodRouter :=
  mk_method_router ∅ (FallbackNone "").

(** The [Vec] of [self.handlers.keys()] (in the map's iteration order),
    sorted, joined with [", "]. *)
Definition allow_header_of (hs : gmap string Route) : string :=
  String.concat ", " (merge_sort String.le (map fst (map_to_list hs))).

(** [MethodRouter::update_allow_header]. *)
Definition update_allow_header (mr : MethodRouter) : MethodRouter :=
  match fallback mr with
  | FallbackNone _ => mk_method_router (handlers mr) (FallbackNone (allow_header_of (handlers mr)))
  | FallbackRoute _ => mr
  end.

(** [MethodRouter::set_method] (and the by-value [method]). *)
Definition set_method (m : string) (r : Route) (mr : MethodRouter) : MethodRouter :=
  update_allow_header (mk_method_router (<[m := r]> (handlers mr)) (fallback mr)).

(** [MethodRouter::set_fallback]. *)
Definition set_fallback (r : Route) (mr : MethodRouter) : MethodRouter :=
  mk_method_router (handlers mr) (FallbackRoute r).

(** [HashMap::extend]: inserts every entry of [other] into [self]. *)
Definition hashmap_extend (self other : gmap string Route) : gmap string Route :=
  map_fold (fun k v acc => <[k := v]> acc) self other.

(** [MethodRouter::merge]; [None] is the panic on two fallback routes. *)
Definition merge (self other : MethodRouter) : option MethodRouter :=
  let hs := hashmap_extend (handlers self) (handlers other) in
  match fallback self, fallback other with
  | FallbackRoute _, FallbackRoute _ => None
  | _, FallbackRoute r => Some (update_allow_header (mk_method_router hs (FallbackRoute r)))
  | fb, _ => Some (update_allow_header (mk_method_router hs fb))
  end.

(** What the [Route] built from a method router does with a request: run a
    route on it, or answer directly. *)
Inductive Outcome :=
| Invoke (r : Route) (req : Request)
| Respond (res : Response).

(** [Result<Response, http::Error>::into_response]. *)
Definition result_response (b : result Response HttpError) : Response :=
  match b with Err e => http_error_into_response e | Ok r => r end.

(** [impl From<MethodRouter> for Route]: the handler closure. *)
Definition method_router_call (mr : MethodRouter) (req : Request) : Outcome :=
  match handlers mr !! req_method req with
  | Some r => Invoke r req
  | None =>
      match fallback mr with
      | FallbackRoute r => Invoke r req
      | FallbackNone ah =>
          Respond (result_response
            (builder_body ""
              (builder_header ALLOW (HvValue ah)
                (builder_status METHOD_NOT_ALLOWED builder_new))))
      end
  end.

(** Mutations of a method router, as a builder sequence. *)
Inductive MrOp :=
| OpSetMethod (m : string) (r : Route)
| OpMerge (other : MethodRouter).

Definition apply_op (mr : MethodRouter) (op : MrOp) : option MethodRouter :=
  match op with
  | OpSetMethod m r => Some (set_method m r mr)
  | OpMerge other => merge mr other
  end.

Fixpoint run_ops (mr : MethodRouter) (ops : list MrOp) : option MethodRouter :=
  match ops with
  | [] => Some mr
  | op :: ops' => match apply_op mr op with
                  | Some mr' => run_ops mr' ops'
                  | None => None
                  end
  end.

End MethodRouterDef.

Arguments MethodRouter : clear implicits.
Arguments MrOp : clear implicits.
Arguments Outcome : clear implicits.

(* ------------------------------------------------------------------ *)
(** ** The [IntoResponse] protocol and the default formatter
       ([src/response/mod.rs]) *)

Class IntoResponse (Fmt Res T : Type) := into_response : T -> Fmt -> Res.
Arguments into_response {Fmt Res T _} _ _.

(** [impl IntoResponse for Result<T, E>]. *)
#[export] Instance into_response_result {Fmt Res T E}
    `{IntoResponse Fmt Res T} `{IntoResponse Fmt Res E}
    : IntoResponse Fmt Res (result T E) :=
  fun r fmt => match r with
               | Ok t => into_response t fmt
               | Err e => into_response e fmt
               end.

(** [impl IntoResponse for Response<B>]. *)
#[export] Instance into_response_response {Fmt} : IntoResponse Fmt Response Response :=
  fun r _ => r.

(** [impl IntoResponse for hyper::http::Error]. *)
#[export] Instance into_response_http_error {Fmt} : IntoResponse Fmt Response HttpError :=
  fun e _ => http_error_into_response e.

(** [impl IntoResponse for ()]. *)
#[export] Instance into_response_unit {Fmt} : IntoResponse Fmt Response unit :=
  fun _ _ => default_response.

(** [impl IntoResponse for String] (and [&'static str]). *)
#[export] Instance into_response_string {Fmt} : IntoResponse Fmt Response string :=
  fun s fmt =>
    into_response (builder_body s (builder_header CONTENT_TYPE (HvStr TEXT_PLAIN) builder_new)) fmt.

(** [std::error::Error]: what the formatter uses of it is its [Display] text. *)
Class StdError (E : Type) := display : E -> string.

Class Formatter (Fmt Err Res : Type) := format_error : Fmt -> Err -> Res.

Inductive DefaultFormatter := DefaultFormatter_.

(** [impl<Err: StdError> Formatter<Err, Response<Body>> for DefaultFormatter]. *)
#[export] Instance default_formatter {Err} `{StdError Err}
    : Formatter DefaultFormatter Err Response :=
  fun fmt err =>
    into_response
      (builder_body (display err)
        (builder_header CONTENT_TYPE (HvStr TEXT_PLAIN)
          (builder_status INTERNAL_SERVER_ERROR builder_new))) fmt.

(* ------------------------------------------------------------------ *)
(** ** Response parts and tuples ([src/response/parts.rs]) *)

Section Parts.
Context {Res Fmt : Type}.

(** A [ResponsePart]: [response_part(self, res, fmt) -> (Res, Option<Fmt>)];
    a [None] formatter means the part failed and [Res] is the error reply. *)
Definition Part := Res -> Fmt -> Res * option Fmt.

(** A terminal [IntoResponse] element: [into_response(self, fmt)]. *)
Definition Terminal := Fmt -> Res * option Fmt.

(** Modelled from the spec: the [respond!] macro (used by
    [src/response/parts.rs], defined at the crate root, which is not in
    [src/]). It unwraps a [(res, Some(fmt))] pair and returns early from the
    enclosing conversion with [(res, None)] otherwise ("short-circuiting to
    an error response if any part's conversion fails"). [inl] continues,
    [inr] is the early return. *)
Definition respond (p : Res * option Fmt) : (Res * Fmt) + (Res * option Fmt) :=
  match p with
  | (res, Some fmt) => inl (res, fmt)
  | (res, None) => inr (res, None)
  end.

(** The leading elements, [$(let (res, fmt) = respond!($ty, res, fmt);)*]. *)
Fixpoint apply_parts (ps : list Part) (res : Res) (fmt : Fmt) : Res * option Fmt :=
  match ps with
  | [] => (res, Some fmt)
  | p :: ps' =>
      match respond (p res fmt) with
      | inl (res', fmt') => apply_parts ps' res' fmt'
      | inr ret => ret
      end
  end.

(** [impl IntoResponse for ($($ty,)* R)]: [respond!(R, fmt)] first, then the
    leading parts in order. *)
Definition tuple_into_response (ps : list Part) (r : Terminal) (fmt : Fmt) : Res * option Fmt :=
  match respond (r fmt) with
  | inl (res, fmt') => apply_parts ps res fmt'
  | inr ret => ret
  end.

End Parts.

Arguments Part : clear implicits.
Arguments Terminal : clear implicits.

(* ------------------------------------------------------------------ *)
(** ** Path parameters ([src/request/ext.rs], [percent_encoding]) *)

Definition hex_digit (c : ascii) : option nat :=
  let n := nat_of_ascii c in
  if Nat.leb 48 n && Nat.leb n 57 then Some (n - 48)
  else if Nat.leb 97 n && Nat.leb n 102 then Some (n - 87)
  else if Nat.leb 65 n && Nat.leb n 70 then Some (n - 55)
  else None.

(** [percent_decode]: a [%] followed by two hex digits is one byte; any
    other [%] is kept as it is. *)
Fixpoint percent_decode (s : string) : string :=
  match s with
  | EmptyString => EmptyString
  | String c t =>
      if Ascii.eqb c "%" then
        match t with
        | String h (String l t') =>
            match hex_digit h, hex_digit l with
            | Some a, Some b => String (ascii_of_nat (a * 16 + b)) (percent_decode t')
            | _, _ => String c (percent_decode t)
            end
        | _ => String c (percent_decode t)
        end
      else String c (percent_decode t)
  end.

Definition in_range (lo hi : nat) (c : ascii) : bool :=
  Nat.leb lo (nat_of_ascii c) && Nat.leb (nat_of_ascii c) hi.

(** The byte after a multi-byte lead byte ([core::str] validation). *)
Definition utf8_second_ok (lead : nat) (c : ascii) : bool :=
  if Nat.eqb lead 224 then in_range 160 191 c
  else if Nat.eqb lead 237 then in_range 128 159 c
  else if Nat.eqb lead 240 then in_range 144 191 c
  else if Nat.eqb lead 244 then in_range 128 143 c
  else in_range 128 191 c.

(** [core::str::from_utf8]'s acceptance check. *)
Fixpoint utf8_valid (s : string) : bool :=
  match s with
  | EmptyString => true
  | String c t =>
      let n := nat_of_ascii c in
      if Nat.ltb n 128 then utf8_valid t
      else if Nat.leb 194 n && Nat.leb n 223 then
        match t with
        | String c1 t1 => in_range 128 191 c1 && utf8_valid t1
        | _ => false
        end
      else if Nat.leb 224 n && Nat.leb n 239 then
        match t with
        | String c1 (String c2 t2) =>
            utf8_second_ok n c1 && in_range 128 191 c2 && utf8_valid t2
        | _ => false
        end
      else if Nat.leb 240 n && Nat.leb n 244 then
        match t with
        | String c1 (String c2 (String c3 t3)) =>
            utf8_second_ok n c1 && in_range 128 191 c2 && in_range 128 191 c3
            && utf8_valid t3
        | _ => false
        end
      else false
  end.

(** [PercentDecode::decode_utf8]: the decoded bytes, if they are UTF-8. *)
Definition decode_utf8 (s : string) : option string :=
  let d := percent_decode s in if utf8_valid d then Some d else None.

Record InvalidParamEncoding := mk_invalid_param_encoding { invalid_key : string }.

#[export] Instance invalid_param_encoding_display : StdError InvalidParamEncoding :=
  fun e => "invalid param encoding for key `" ++ invalid_key e ++ "`".

(** The per-key closure of [TryFrom<matchit::Params> for RouteParamsExt]. *)
Definition decode_param (kv : string * string)
    : result (string * string) InvalidParamEncoding :=
  match decode_utf8 (snd kv) with
  | Some d => Ok (fst kv, d)
  | None => Err (mk_invalid_param_encoding (fst kv))
  end.

(** [.collect::<Result<HashMap<_, _>, _>>()]: inserts in order, stops at
    the first error. *)
Fixpoint collect_params (acc : gmap string string) (ps : list (string * string))
    : result (gmap string string) InvalidParamEncoding :=
  match ps with
  | [] => Ok acc
  | kv :: ps' =>
      match decode_param kv with
      | Ok (k, v) => collect_params (<[k := v]> acc) ps'
      | Err e => Err e
      end
  end.

(** [RouteParamsExt::try_from(params)]. *)
Definition route_params_try_from (ps : list (string * string))
    : result (gmap string string) InvalidParamEncoding :=
  collect_params ∅ ps.

(* ------------------------------------------------------------------ *)
(** ** Uri rewriting *)

(** [PathAndQuery::from_str]: the query starts after the first [?]. *)
Fixpoint split_query (s : string) : string * option string :=
  match s with
  | EmptyString => (EmptyString, None)
  | String c t =>
      if Ascii.eqb c "?" then (EmptyString, Some t)
      else let (p, q) := split_query t in (String c p, q)
  end.

(** [replace_path] (identical in [src/router.rs] and
    [src/response/impls.rs]): only [path_and_query] is rebuilt, from
    [format!("{}?{}", path, query)] or [format!("{}", path)]. *)
Definition replace_path (u : Uri) (path : string) : Uri :=
  mk_uri (uri_scheme u) (uri_authority u)
    (match uri_path_and_query u with
     | Some (_, Some q) => Some (split_query (path ++ "?" ++ q))
     | Some (_, None) => Some (split_query path)
     | None => None
     end).

(** [str::strip_suffix('/')]. *)
Fixpoint strip_suffix_slash (s : string) : option string :=
  match s with
  | EmptyString => None
  | String c EmptyString => if Ascii.eqb c "/" then Some EmptyString else None
  | String c t => option_map (String c) (strip_suffix_slash t)
  end.

(* ------------------------------------------------------------------ *)
(** ** Path routing and dispatch ([src/router.rs]) *)

(** [matchit::MatchError]. *)
Inductive MatchError :=
| MatchNotFound
| MatchExtraTrailingSlash
| MatchMissingTrailingSlash.

(** [RouteError] of [src/router.rs]. *)
Inductive RouteError :=
| NotFound
| Expected (u : Uri)
| Path (e : InvalidParamEncoding)
| MethodNotAllowed (allow_header : string).

(** [RequestFuture]: a running route future, or an immediate response that
    is taken by the first poll. *)
Inductive RequestFuture (Res Fut : Type) :=
| RequestFuture_Route (fut : Fut)
| RequestFuture_Response (res : option Res).
Arguments RequestFuture_Route {Res Fut} fut.
Arguments RequestFuture_Response {Res Fut} res.

Section RouterDef.
Context {Route Fut Fmt : Type}.
(** [route.handler_fn()]: the route's closure, producing its future. *)
Variable handler_fn : Route -> Request -> Fmt -> Fut.
Context `{Formatter Fmt RouteError Response}.

(** [RouterImpl]: the path trie (the [matchit] crate), represented by its
    lookup [at], which returns the bound value with the raw captures or a
    [MatchError]; and the default route. *)
Record RouterImpl := mk_router_impl {
  inner : string -> result (Route * list (string * string)) MatchError;
  default : option Route
}.

(** [impl Service<Request<B>> for RequestService::call]; [None] is a panic
    (the [unwrap] of [strip_suffix('/')]). *)
Definition call (router : RouterImpl) (formatter : Fmt) (remote_addr : string)
    (req0 : Request) : option (RequestFuture Response Fut) :=
  let req := mk_request (req_method req0) (req_uri req0) (Some remote_addr) (req_params req0) in
  let path := uri_path (req_uri req) in
  let res : option (result (Route * option (gmap string string)) RouteError) :=
    match inner router path with
    | Ok (route, params) =>
        Some match route_params_try_from params with
             | Ok ps => Ok (route, Some ps)
             | Err err => Err (Path err)
             end
    | Err MatchNotFound =>
        Some match default router with
             | Some route => Ok (route, None)
             | None => Err NotFound
             end
    | Err MatchExtraTrailingSlash =>
        option_map (fun p => Err (Expected (replace_path (req_uri req) p)))
          (strip_suffix_slash path)
    | Err MatchMissingTrailingSlash =>
        Some (Err (Expected (replace_path (req_uri req) (path ++ "/"))))
    end in
  match res with
  | None => None
  | Some (Ok (route, params)) =>
      let req' := match params with
                  | Some ps => mk_request (req_method req) (req_uri req) (req_remote_addr req) (Some ps)
                  | None => req
                  end in
      Some (RequestFuture_Route (handler_fn route req' formatter))
  | Some (Err err) => Some (RequestFuture_Response (Some (format_error formatter err)))
  end.

End RouterDef.

Arguments RouterImpl : clear implicits.

(** [std::task::Poll]. *)
Inductive Poll (T : Type) :=
| Ready (v : T)
| Pending.
Arguments Ready {T} v.
Arguments Pending {T}.

Section PollDef.
Context {Res Fut : Type}.
(** The inner future: one poll gives a [Poll] and the future's next state. *)
Variable fut_poll : Fut -> Poll Res * Fut.

(** [impl Future for RequestFuture::poll]; [None] is the
    ["future polled after completion"] panic. *)
Definition request_future_poll (rf : RequestFuture Res Fut)
    : option (Poll Res * RequestFuture Res Fut) :=
  match rf with
  | RequestFuture_Route fut =>
      let (p, fut') := fut_poll fut in Some (p, RequestFuture_Route fut')
  | RequestFuture_Response (Some res) => Some (Ready res, RequestFuture_Response None)
  | RequestFuture_Response None => None
  end.

(** Polling repeatedly; stops at a panic. *)
Fixpoint poll_n (n : nat) (rf : RequestFuture Res Fut)
    : list (Poll Res) * option (RequestFuture Res Fut) :=
  match n with
  | O => ([], Some rf)
  | S n' =>
      match request_future_poll rf with
      | None => ([], None)
      | Some (p, rf') => let (ps, last) := poll_n n' rf' in (p :: ps, last)
      end
  end.

End PollDef.

(* ------------------------------------------------------------------ *)
(** ** Rendering of route errors ([src/response/impls.rs])

    This variant's [Reply]/[ReplyPart] have the same shape as the
    [IntoResponse]/[ResponsePart] pair above: a part maps [(Response, Fmt)]
    to [(Response, Option<Fmt>)]. *)

Module Impls.

(** [impl ReplyPart for StatusCode]. *)
Definition status_part {Fmt} (s : N) : Part Response Fmt :=
  fun res fmt => (set_status s res, Some fmt).

(** [impl ReplyPart for String] (and [&'static str], [Cow<'static, str>]). *)
Definition string_part {Fmt} (s : string) : Part Response Fmt :=
  fun res fmt =>
    (mk_response (status res) (header_insert (headers res) CONTENT_TYPE TEXT_PLAIN) s, Some fmt).

(** Modelled from the spec: [impl Reply for (T1, ..., Tn)] of this variant
    (not in [src/]): "build a default response, apply the terminal element
    first, then apply each part left-to-right, short-circuiting to an error
    response if any part's conversion fails". *)
Definition tuple_reply {Fmt} (ps : list (Part Response Fmt)) (last : Part Response Fmt)
    (fmt : Fmt) : Response :=
  fst (tuple_into_response ps (fun f => last default_response f) fmt).

(** [impl Reply<DefaultFormatter> for hyper::http::Error] (and the
    [InvalidHeaderValue], ... converted into it). *)
Definition http_error_reply (e : HttpError) (fmt : DefaultFormatter) : Response :=
  tuple_reply [status_part INTERNAL_SERVER_ERROR] (string_part (http_error_msg e)) fmt.

(** [impl ReplyPart for [(K, V); N]] at [K = HeaderName], as every use in
    the crate has it ([header::LOCATION], [header::ALLOW]): the name's
    [try_into] is the identity, each value is converted with [try_into], a
    failure replies with the error and stops. The generic part is
    [headers_part_kv] below. *)
Fixpoint headers_part (kvs : list (string * HeaderInput)) : Part Response DefaultFormatter :=
  fun res fmt =>
    match kvs with
    | [] => (res, Some fmt)
    | (k, v) :: kvs' =>
        match header_value_try v with
        | inl e => (http_error_reply e fmt, None)
        | inr v' => headers_part kvs' (mk_response (status res) (header_insert (headers res) k v') (body res)) fmt
        end
    end.

(** [impl<K: TryInto<HeaderName>, V: TryInto<HeaderValue>> ReplyPart for
    [(K, V); N]]: for each pair in order, the name is converted, then the
    value; the first failure returns [(err.reply(fmt), None)], the
    [InvalidHeaderName] and [InvalidHeaderValue] replies going through
    [hyper::http::Error]; otherwise the header is inserted. *)
Fixpoint headers_part_kv (kvs : list (NameInput * HeaderInput)) : Part Response DefaultFormatter :=
  fun res fmt =>
    match kvs with
    | [] => (res, Some fmt)
    | (k, v) :: kvs' =>
        match header_name_try k with
        | inl e => (http_error_reply e fmt, None)
        | inr k' =>
            match header_value_try v with
            | inl e => (http_error_reply e fmt, None)
            | inr v' =>
                headers_part_kv kvs'
                  (mk_response (status res) (header_insert (headers res) k' v') (body res)) fmt
            end
        end
    end.

(** [RouteErrorKind]. *)
Inductive RouteErrorKind :=
| NotFound
| ExtraTrailingSlash
| MissingTrailingSlash
| Param (e : InvalidParamEncoding).

(** [impl Reply<DefaultFormatter> for RouteError { request, kind }];
    [None] is the panic of [strip_suffix('/').unwrap()]. *)
Definition reply_route_error (req : Request) (kind : RouteErrorKind) (fmt : DefaultFormatter)
    : option Response :=
  let u := req_uri req in
  match kind with
  | NotFound => Some (tuple_reply [] (status_part NOT_FOUND) fmt)
  | ExtraTrailingSlash =>
      option_map (fun p =>
        tuple_reply [status_part PERMANENT_REDIRECT]
          (headers_part [(LOCATION, HvStr (uri_to_string (replace_path u p)))]) fmt)
        (strip_suffix_slash (uri_path u))
  | MissingTrailingSlash =>
      Some (tuple_reply [status_part PERMANENT_REDIRECT]
        (headers_part [(LOCATION, HvStr (uri_to_string (replace_path u (uri_path u ++ "/"))))]) fmt)
  | Param _ => Some (tuple_reply [] (status_part BAD_REQUEST) fmt)
  end.

End Impls.

(** [RouteError]'s [Display] ([thiserror] messages of [src/router.rs]). *)
#[export] Instance route_error_display : StdError RouteError :=
  fun e => match e with
           | NotFound => "not found"
           | Expected u => "expected uri: " ++ uri_to_string u
           | Path err => "invalid param encoding: " ++ display err
           | MethodNotAllowed _ => "method not allowed"
           end.

(* ------------------------------------------------------------------ *)
(** ** More of [MethodRouter] ([src/method.rs]) *)

(** [MethodRouter::method]: the by-value [set_method]. *)
Definition method {Route} (self : MethodRouter Route) (m : string) (route : Route)
    : MethodRouter Route :=
  set_method m route self.

(** The functions of [impl_method_helpers!] ([get], [post], [put], [delete],
    [head], [options], [connect], [patch], [trace]): each is
    [MethodRouter::new().method(Method::$method, route)] for its method. *)
Definition method_helper {Route} (m : string) (route : Route) : MethodRouter Route :=
  method method_router_new m route.

(** The [Allow] value stored without a fallback route is the one
    [update_allow_header] computes from the handlers. *)
Definition allow_header_consistent {Route} (mr : MethodRouter Route) : Prop :=
  ∀ ah, fallback mr = FallbackNone ah → ah = allow_header_of (handlers mr).

(* ------------------------------------------------------------------ *)
(** ** [RouterBuilder] ([src/router.rs]) *)

Module RouterBuilder.
Section Def.
Context {Route : Type}.

Record RouterBuilder := mk_router_builder {
  routes : list (string * Route);
  default : option Route
}.

(** [Router::builder()]. *)
Definition builder : RouterBuilder := mk_router_builder [] None.

(** [RouterBuilder::route]: [self.routes.push((path.into(), handler.into_route()))]. *)
Definition route (path : string) (handler : Route) (self : RouterBuilder) : RouterBuilder :=
  mk_router_builder (routes self ++ [(path, handler)])%list (default self).

(** [RouterBuilder::default_route]. *)
Definition default_route (r : Route) (self : RouterBuilder) : RouterBuilder :=
  mk_router_builder (routes self) (Some r).

(** [for (path, route) in router.routes { routes.push((path, route)); }] *)
Fixpoint push_all (routes new : list (string * Route)) : list (string * Route) :=
  match new with
  | [] => routes
  | pr :: new' => push_all (routes ++ [pr])%list new'
  end.

(** [RouterBuilder::merge]; [None] is the panic
    ["cannot merge routers with conflicting default routes"]
    ([default.replace(route)] returned [Some]). *)
Definition merge (self router : RouterBuilder) : option RouterBuilder :=
  let routes := push_all (routes self) (routes router) in
  match default router with
  | Some r =>
      match default self with
      | Some _ => None
      | None => Some (mk_router_builder routes (Some r))
      end
  | None => Some (mk_router_builder routes (default self))
  end.

End Def.
Arguments RouterBuilder : clear implicits.
End RouterBuilder.

(* ------------------------------------------------------------------ *)
(** ** [RequestExt] ([src/request/mod.rs]) and [RouteParams]
       ([src/request/params.rs]) *)

(** [RequestExt::params]: the [RouteParamsExt] extension; [None] is the
    panic of its [expect]. *)
Definition params (req : Request) : option (gmap string string) := req_params req.

(** [RequestExt::remote_address]: the [RemoteAddrExt] extension; [None] is
    the panic of its [expect]. *)
Definition remote_address (req : Request) : option string := req_remote_addr req.

Module RouteParams.
(** [RouteParams::get]: [self.0.get(param.as_ref())]. *)
Definition get (rp : gmap string string) (param : string) : option string := rp !! param.
End RouteParams.

(* ------------------------------------------------------------------ *)
(** ** More of the response protocol *)

(** [impl ResponsePart for (T1, ..., Tn)] ([src/response/parts.rs]): the
    elements, in order, each with [respond!]. *)
Definition tuple_part {Res Fmt} (ps : list (Part Res Fmt)) : Part Res Fmt :=
  fun res fmt => apply_parts ps res fmt.

(** [impl IntoResponse for (R,)]: [self.0.into_response(fmt)]. *)
Definition single_into_response {Res Fmt} (r : Terminal Res Fmt) : Terminal Res Fmt :=
  fun fmt => r fmt.

(** [impl Reply<DefaultFormatter> for MethodNotAllowed]
    ([src/response/impls.rs]): the [&HeaderValue] converts infallibly. *)
Definition method_not_allowed_reply (allow_header : string) (fmt : DefaultFormatter)
    : Response :=
  Impls.tuple_reply [Impls.status_part METHOD_NOT_ALLOWED]
    (Impls.headers_part [(ALLOW, HvValue allow_header)]) fmt.

(** The text of a header input. *)
Definition hv_text (v : HeaderInput) : string :=
  match v with HvValue s | HvStr s => s end.

(** The header name a name input converts to ([""] if it does not). *)
Definition hn_text (k : NameInput) : string :=
  match header_name_try k with inr k' => k' | inl _ => "" end.

(** A header array with its names converted. *)
Definition header_array_text (kvs : list (NameInput * HeaderInput)) : list (string * HeaderInput) :=
  map (λ kv, (hn_text kv.1, kv.2)) kvs.

(** The first conversion error of a header array, in the order the part
    converts: each pair's name, then its value. *)
Fixpoint header_array_error (kvs : list (NameInput * HeaderInput)) : option HttpError :=
  match kvs with
  | [] => None
  | (k, v) :: kvs' =>
      match header_name_try k with
      | inl e => Some e
      | inr _ => match header_value_try v with inl e => Some e | inr _ => header_array_error kvs' end
      end
  end.

(* ------------------------------------------------------------------ *)
(** ** Predicates used by the statements *)

(** [l] lists exactly the methods registered in [hs], sorted by [String]'s
    byte-wise order, each once. *)
Definition sorted_methods {Route} (l : list string) (hs : gmap string Route) : Prop :=
  Sorted String.le l ∧ NoDup l ∧ ∀ m, m ∈ l ↔ is_Some (hs !! m).


(** The encoding side of percent-encoding (RFC 3986): every byte written as
    [%HH] with upper-case hex digits. Not part of the crate; it states what
    [percent_decode] undoes. *)
Definition hex_upper (d : nat) : ascii :=
  ascii_of_nat (if Nat.ltb d 10 then 48 + d else 55 + d).

Definition percent_encode_byte (c : ascii) : string :=
  String "%"%char (String (hex_upper (nat_of_ascii c / 16))
    (String (hex_upper (nat_of_ascii c mod 16)) EmptyString)).

Fixpoint percent_encode_all (s : string) : string :=
  match s with
  | EmptyString => EmptyString
  | String c t => percent_encode_byte c ++ percent_encode_all t
  end.

(** The request as [call] hands it on: with its [RemoteAddrExt]. *)
Definition with_addr (req : Request) (addr : string) : Request :=
  mk_request (req_method req) (req_uri req) (Some addr) (req_params req).

(* ------------------------------------------------------------------ *)
(** ** Concrete inputs *)

(** A route is a number; its "future" records the route and the request. *)
Definition demo_handler (r : nat) (req : Request) (_ : DefaultFormatter) : nat * Request :=
  (r, req).

Definition demo_uri (path : string) (q : option string) : Uri :=
  mk_uri None None (Some (path, q)).

Definition demo_request (path : string) : Request :=
  mk_request "GET" (demo_uri path None) None None.


Definition newline : string := String (ascii_of_nat 10) EmptyString.

(* ================================================================== *)
(** * Proofs *)

(* ------------------------------------------------------------------ *)
(** ** String helpers *)


Lemma string_app_cons (c : ascii) (s t : string) : String c s ++ t = String c (s ++ t).
Proof. reflexivity. Qed.

Lemma string_app_nil_l (s : string) : "" ++ s = s.
Proof. reflexivity. Qed.

Lemma string_app_nil_r (s : string) : s ++ "" = s.
Proof. induction s as [|c s IH]; [done|by rewrite string_app_cons, IH]. Qed.

Lemma strip_suffix_slash_app (s : string) : strip_suffix_slash (s ++ "/") = Some s.
Proof.
  induction s as [|c s IH]; [reflexivity|].
  rewrite string_app_cons. destruct s as [|c' s']; [reflexivity|].
  change (option_map (String c) (strip_suffix_slash (String c' s' ++ "/")) = Some (String c (String c' s'))).
  by rewrite IH.
Qed.


Lemma split_query_app (s t : string) :
  split_query s = (s, None) →
  split_query (s ++ t) = (s ++ fst (split_query t), snd (split_query t)).
Proof.
  induction s as [|c s IH]; intros H.
  - rewrite !string_app_nil_l. by destruct (split_query t).
  - rewrite string_app_cons. simpl in *. destruct (Ascii.eqb c "?"); [discriminate|].
    destruct (split_query s) as [p q] eqn:E. injection H as -> ->.
    rewrite IH by done. rewrite string_app_cons. simpl. by destruct (split_query t).
Qed.



Lemma nonempty_path (p : string) : p ≠ "" → (if String.eqb p "" then "/" else p) = p.
Proof. intros H. destruct (String.eqb_spec p ""); [contradiction|done]. Qed.

Lemma replace_path_query (u : Uri) (p p' : string) (q : option string) :
  uri_path_and_query u = Some (p, q) → split_query p' = (p', None) →
  replace_path u p' = mk_uri (uri_scheme u) (uri_authority u) (Some (p', q)).
Proof.
  intros Hpq Hp'. unfold replace_path. rewrite Hpq. f_equal. destruct q as [q|].
  - rewrite (split_query_app _ _ Hp'). rewrite string_app_cons. simpl. by rewrite string_app_nil_r.
  - by rewrite Hp'.
Qed.


(* ------------------------------------------------------------------ *)
(** ** Method router *)



Lemma allow_header_of_sorted {Route} (hs : gmap string Route) :
  sorted_methods (merge_sort String.le (map fst (map_to_list hs))) hs.
Proof.
  split; [apply Sorted_merge_sort; apply String.le_total|split].
  - rewrite (merge_sort_Permutation String.le). apply NoDup_fst_map_to_list.
  - intros m. rewrite (merge_sort_Permutation String.le).
    change (map fst (map_to_list hs)) with ((map_to_list hs).*1).
    rewrite list_elem_of_fmap. split.
    + intros [[k v] [-> Hin]]. apply elem_of_map_to_list in Hin. simpl. eauto.
    + intros [v Hv]. exists (m, v). split; [done|]. by apply elem_of_map_to_list.
Qed.

Lemma sorted_methods_unique {Route} (hs : gmap string Route) l1 l2 :
  sorted_methods l1 hs → sorted_methods l2 hs → l1 = l2.
Proof.
  intros (S1 & N1 & E1) (S2 & N2 & E2).
  apply (Sorted_unique String.le); [done|done|].
  apply NoDup_Permutation; [done|done|]. intros x. by rewrite E1, E2.
Qed.

Lemma hashmap_extend_lookup {Route} (self other : gmap string Route) k :
  hashmap_extend self other !! k =
  match other !! k with Some v => Some v | None => self !! k end.
Proof.
  unfold hashmap_extend. induction other as [|i x m Hi IH] using map_ind.
  - by rewrite map_fold_empty, lookup_empty.
  - rewrite map_fold_insert_L; [| intros; by apply insert_insert_ne | done].
    destruct (decide (i = k)) as [->|Hne].
    + by rewrite !lookup_insert_eq.
    + by rewrite !lookup_insert_ne.
Qed.


Lemma update_allow_header_inv {Route} (mr : MethodRouter Route) ah :
  fallback (update_allow_header mr) = FallbackNone ah →
  ah = allow_header_of (handlers (update_allow_header mr)).
Proof. unfold update_allow_header. destruct (fallback mr) eqn:E; simpl; [by rewrite E|by intros [= <-]]. Qed.

Lemma apply_op_inv {Route} (mr mr' : MethodRouter Route) op ah :
  apply_op mr op = Some mr' → fallback mr' = FallbackNone ah →
  ah = allow_header_of (handlers mr').
Proof.
  destruct op as [m r|other]; simpl.
  - intros [= <-]. apply update_allow_header_inv.
  - unfold merge. destruct (fallback mr), (fallback other);
      try discriminate; intros [= <-]; apply update_allow_header_inv.
Qed.

Lemma run_ops_inv {Route} (ops : list (MrOp Route)) mr mr' ah :
  (∀ ah0, fallback mr = FallbackNone ah0 → ah0 = allow_header_of (handlers mr)) →
  run_ops mr ops = Some mr' → fallback mr' = FallbackNone ah →
  ah = allow_header_of (handlers mr').
Proof.
  revert mr. induction ops as [|op ops IH]; intros mr Hinv; simpl.
  - intros [= <-]. apply Hinv.
  - destruct (apply_op mr op) as [mr1|] eqn:Hop; [|discriminate].
    apply IH. intros ah0. exact (apply_op_inv mr mr1 op ah0 Hop).
Qed.

(** C5: after any sequence of [set_method]/[method] and [merge] operations
    starting from [MethodRouter::new()], whenever the router has no fallback
    route its stored [Allow] value is the [", "]-join of the byte-wise sorted
    list of exactly the registered methods, each once (such a list exists and
    any such list gives that value). *)
Theorem allow_header_always_sorted_registered_methods {Route}
    (ops : list (MrOp Route)) (mr : MethodRouter Route) (ah : string) :
  run_ops method_router_new ops = Some mr →
  fallback mr = FallbackNone ah →
  (∃ l, sorted_methods l (handlers mr)) ∧
  (∀ l, sorted_methods l (handlers mr) → ah = String.concat ", " l).
Proof.
  intros Hrun Hfb.
  assert (Hah : ah = allow_header_of (handlers mr)).
  { eapply run_ops_inv; [|exact Hrun|exact Hfb].
    intros ah0 [= <-]. reflexivity. }
  split; [eexists; apply allow_header_of_sorted|].
  intros l Hl. rewrite Hah. unfold allow_header_of. f_equal.
  eapply sorted_methods_unique; [apply allow_header_of_sorted|exact Hl].
Qed.

Lemma allow_header_always_sorted_registered_methods_witness :
  run_ops (method_router_new (Route := nat))
    [OpSetMethod "POST" 1; OpSetMethod "GET" 2; OpSetMethod "POST" 3] =
    Some (mk_method_router (<["POST" := 3]> (<["GET" := 2]> (<["POST" := 1]> (∅ : gmap string nat))))
            (FallbackNone "GET, POST")) ∧
  String.concat ", " ["GET"; "POST"] = "GET, POST".
Proof.
  split; [vm_compute; reflexivity|].
  destruct (allow_header_always_sorted_registered_methods (Route := nat)
    [OpSetMethod "POST" 1; OpSetMethod "GET" 2; OpSetMethod "POST" 3]
    (mk_method_router (<["POST" := 3]> (<["GET" := 2]> (<["POST" := 1]> (∅ : gmap string nat))))
            (FallbackNone "GET, POST")) "GET, POST") as [_ H];
    [vm_compute; reflexivity | reflexivity |].
  symmetry. apply H. split; [|split].
  - repeat constructor; vm_compute; exact I.
  - repeat constructor; set_solver.
  - intros m. split.
    + intros Hm. repeat (apply elem_of_cons in Hm as [->|Hm]);
        [by eexists; simplify_map_eq.. | by apply elem_of_nil in Hm].
    + intros [v Hv].
      destruct (decide (m = "GET")) as [->|]; [set_solver|].
      destruct (decide (m = "POST")) as [->|]; [set_solver|].
      by simplify_map_eq.
Defined.

(** C4: the route built from a method router invokes the route registered
    for the request method; otherwise the fallback route; otherwise it
    answers [405] with an [Allow] header equal to the stored value, whatever
    that value is (nothing is recomputed at dispatch). *)
Theorem method_router_dispatch {Route} (mr : MethodRouter Route) (req : Request) :
  method_router_call mr req =
  match handlers mr !! req_method req, fallback mr with
  | Some r, _ => Invoke r req
  | None, FallbackRoute r => Invoke r req
  | None, FallbackNone ah => Respond (mk_response METHOD_NOT_ALLOWED [(ALLOW, ah)] "")
  end.
Proof.
  unfold method_router_call. destruct (handlers mr !! req_method req); [done|].
  destruct (fallback mr); reflexivity.
Qed.

(** C10: a fresh method router (no method, no fallback) answers every
    request with [405] and an empty [Allow] header, which is also the sorted
    join of the empty method set. *)
Theorem new_method_router_405_empty_allow {Route} (req : Request) :
  method_router_call (method_router_new (Route := Route)) req =
    Respond (mk_response METHOD_NOT_ALLOWED [(ALLOW, "")] "") ∧
  allow_header_of (∅ : gmap string Route) = "".
Proof. split; reflexivity. Qed.

(** C6: [merge] panics exactly when both routers have a fallback route;
    when one has, the merged router keeps that one; the merged handlers take
    the other router's entry on a shared method and [self]'s otherwise. *)
Theorem merge_fallback_and_handlers {Route} (self other : MethodRouter Route) :
  match fallback self, fallback other with
  | FallbackRoute _, FallbackRoute _ => merge self other = None
  | FallbackRoute r, FallbackNone _ | FallbackNone _, FallbackRoute r =>
      ∃ mr, merge self other = Some mr ∧ fallback mr = FallbackRoute r ∧
        ∀ k, handlers mr !! k =
          match handlers other !! k with Some v => Some v | None => handlers self !! k end
  | FallbackNone _, FallbackNone _ =>
      ∃ mr, merge self other = Some mr ∧ fallback mr = FallbackNone (allow_header_of (handlers mr)) ∧
        ∀ k, handlers mr !! k =
          match handlers other !! k with Some v => Some v | None => handlers self !! k end
  end.
Proof.
  unfold merge. destruct (fallback self) eqn:E1, (fallback other) eqn:E2; try reflexivity;
    eexists; (split; [reflexivity|]); simpl; rewrite ?E1; (split; [reflexivity|]);
    intros k; apply hashmap_extend_lookup.
Qed.

(* ------------------------------------------------------------------ *)
(** ** Path routing *)





Section RouterProofs.
Context {Route Fut Fmt : Type}.
Variable handler_fn : Route -> Request -> Fmt -> Fut.
Context `{Formatter Fmt RouteError Response}.


(** C1 (amended): the trie outcome decides the dispatch. An exact match
    runs the bound route with the decoded parameters attached when every
    capture decodes, and answers the [Path] error otherwise; an extra
    trailing slash answers [Expected] with the slash stripped; a missing one
    answers [Expected] with it appended; neither near miss depends on the
    default route; only a total miss runs the default route (on the request
    with no parameters attached) or answers [NotFound]. *)
Theorem path_lookup_outcomes (router : RouterImpl Route) (fmt : Fmt) (addr : string) (req : Request) :
  let path := uri_path (req_uri req) in
  match inner router path with
  | Ok (r, ps) =>
      match route_params_try_from ps with
      | Ok m => call handler_fn router fmt addr req =
          Some (RequestFuture_Route (handler_fn r
            (mk_request (req_method req) (req_uri req) (Some addr) (Some m)) fmt))
      | Err e => call handler_fn router fmt addr req =
          Some (RequestFuture_Response (Some (format_error fmt (Path e))))
      end
  | Err MatchExtraTrailingSlash =>
      (∀ p, path = p ++ "/" →
        call handler_fn router fmt addr req =
          Some (RequestFuture_Response (Some (format_error fmt (Expected (replace_path (req_uri req) p)))))) ∧
      (∀ d, call handler_fn (mk_router_impl (inner router) d) fmt addr req = call handler_fn router fmt addr req)
  | Err MatchMissingTrailingSlash =>
      call handler_fn router fmt addr req =
        Some (RequestFuture_Response (Some (format_error fmt (Expected (replace_path (req_uri req) (path ++ "/")))))) ∧
      (∀ d, call handler_fn (mk_router_impl (inner router) d) fmt addr req = call handler_fn router fmt addr req)
  | Err MatchNotFound =>
      match default router with
      | Some r => call handler_fn router fmt addr req =
          Some (RequestFuture_Route (handler_fn r (with_addr req addr) fmt))
      | None => call handler_fn router fmt addr req =
          Some (RequestFuture_Response (Some (format_error fmt NotFound)))
      end
  end.
Proof.
  intros path. unfold path. unfold call; simpl.
  destruct (inner router (uri_path (req_uri req))) as [[r ps]|[| |]] eqn:Hm.
  - destruct (route_params_try_from ps); reflexivity.
  - destruct (default router); reflexivity.
  - split.
    + intros p Hp. rewrite Hp, strip_suffix_slash_app. reflexivity.
    + intros d. simpl. rewrite ?Hm. reflexivity.
  - split; [reflexivity|]. intros d. simpl. rewrite ?Hm. reflexivity.
Qed.


End RouterProofs.

(* ------------------------------------------------------------------ *)
(** ** Response protocol and dispatch future *)


(** C7: converting [Ok(t)] is converting [t] and converting [Err(e)] is
    converting [e]; the default formatter renders any error as [500] with a
    [text/plain] body equal to the error's display text. *)
Theorem result_reply_same_channel_and_default_formatter :
  (∀ (Fmt Res T E : Type) `{IntoResponse Fmt Res T} `{IntoResponse Fmt Res E}
     (t : T) (e : E) (fmt : Fmt),
     into_response (Ok t : result T E) fmt = into_response t fmt ∧
     into_response (Err e : result T E) fmt = into_response e fmt) ∧
  (∀ (Err : Type) `{StdError Err} (err : Err),
     (format_error DefaultFormatter_ err : Response) =
       mk_response INTERNAL_SERVER_ERROR [(CONTENT_TYPE, TEXT_PLAIN)] (display err)).
Proof. split; [intros; split; reflexivity|intros; reflexivity]. Qed.

Section PartsProofs.
Context {Res Fmt : Type}.

Lemma apply_parts_app (ps1 ps2 : list (Part Res Fmt)) res fmt :
  apply_parts (ps1 ++ ps2)%list res fmt =
  match apply_parts ps1 res fmt with
  | (res', Some fmt') => apply_parts ps2 res' fmt'
  | (res', None) => (res', None)
  end.
Proof.
  revert res fmt. induction ps1 as [|p ps1 IH]; intros res fmt; [reflexivity|].
  simpl. destruct (p res fmt) as [r [f|]]; simpl; [apply IH|reflexivity].
Qed.

(** C8: a tuple converts its terminal (last) element first; if that fails
    the result is its error reply; otherwise the leading parts are applied
    left to right, and the first failing part's error reply is the result,
    the parts after it being skipped. *)
Theorem tuple_terminal_first_then_parts_short_circuit :
  (∀ (ps : list (Part Res Fmt)) (r : Terminal Res Fmt) fmt r0,
     r fmt = (r0, None) → tuple_into_response ps r fmt = (r0, None)) ∧
  (∀ (ps : list (Part Res Fmt)) (r : Terminal Res Fmt) fmt r0 f0,
     r fmt = (r0, Some f0) → tuple_into_response ps r fmt = apply_parts ps r0 f0) ∧
  (∀ (p : Part Res Fmt) ps res fmt,
     apply_parts (p :: ps) res fmt =
       match p res fmt with
       | (res', Some fmt') => apply_parts ps res' fmt'
       | (res', None) => (res', None)
       end) ∧
  (∀ (ps1 ps2 : list (Part Res Fmt)) (p : Part Res Fmt) res fmt r1 f1 e,
     apply_parts ps1 res fmt = (r1, Some f1) → p r1 f1 = (e, None) →
     apply_parts (ps1 ++ p :: ps2)%list res fmt = (e, None)).
Proof.
  split; [|split; [|split]].
  - intros ps r fmt r0 H. unfold tuple_into_response. by rewrite H.
  - intros ps r fmt r0 f0 H. unfold tuple_into_response. by rewrite H.
  - intros p ps res fmt. simpl. by destruct (p res fmt) as [? [?|]].
  - intros ps1 ps2 p res fmt r1 f1 e H1 Hp. rewrite apply_parts_app, H1. simpl. by rewrite Hp.
Qed.
End PartsProofs.

Section PollProofs.
Context {Res Fut : Type}.
Variable fut_poll : Fut -> Poll Res * Fut.

(** C9 (amended): in the [Route] state every poll, also one after the inner
    future completed, is forwarded to the inner future and yields what it
    yields; in the [Response] state the first poll yields the held response
    and consumes it, and a later poll panics. *)
Theorem request_future_poll_behaviour :
  (∀ fut, request_future_poll fut_poll (RequestFuture_Route fut) =
            Some (fst (fut_poll fut), RequestFuture_Route (snd (fut_poll fut)))) ∧
  (∀ res, request_future_poll fut_poll (RequestFuture_Response (Some res)) =
            Some (Ready res, RequestFuture_Response None)) ∧
  request_future_poll fut_poll (RequestFuture_Response None) = None ∧
  (∀ res, poll_n fut_poll 2 (RequestFuture_Response (Some res)) = ([Ready res], None)).
Proof.
  split; [|split; [|split]]; try reflexivity.
  intros fut. simpl. by destruct (fut_poll fut).
Qed.
End PollProofs.

(** C9 counterexample: with an inner future that answers [Ready] on every
    poll, the [Route] state yields a response twice and never panics. *)
Lemma request_future_repoll_no_panic :
  poll_n (fun (_ : unit) => (Ready 7%nat, tt)) 2 (RequestFuture_Route tt) =
    ([Ready 7%nat; Ready 7%nat], Some (RequestFuture_Route tt)).
Proof. reflexivity. Qed.

(* ------------------------------------------------------------------ *)
(** ** Concrete instances *)

(** C1 counterexample: an exact trie match whose capture is not UTF-8 after
    percent-decoding does not run the bound route. *)
Lemma exact_match_not_dispatched_on_bad_encoding :
  let router := mk_router_impl (fun _ => Ok (1%nat, [("id", "%FF")])) None in
  inner router (uri_path (req_uri (demo_request "/items/%FF"))) = Ok (1%nat, [("id", "%FF")]) ∧
  ∀ fut, call demo_handler router DefaultFormatter_ "10.0.0.1:80" (demo_request "/items/%FF")
         ≠ Some (RequestFuture_Route fut).
Proof. split; [reflexivity|]. intros fut. vm_compute. discriminate. Qed.

Lemma path_lookup_outcomes_witness :
  call demo_handler (mk_router_impl (fun _ => Ok (1%nat, [("id", "42")])) (Some 9%nat))
    DefaultFormatter_ "10.0.0.1:80" (demo_request "/items/42") =
  Some (RequestFuture_Route (1%nat,
    mk_request "GET" (demo_uri "/items/42" None) (Some "10.0.0.1:80") (Some {["id" := "42"]}))).
Proof.
  exact (path_lookup_outcomes demo_handler
    (mk_router_impl (fun _ => Ok (1%nat, [("id", "42")])) (Some 9%nat))
    DefaultFormatter_ "10.0.0.1:80" (demo_request "/items/42")).
Defined.




Lemma tuple_terminal_first_then_parts_short_circuit_witness :
  apply_parts
    [Impls.status_part PERMANENT_REDIRECT;
     Impls.headers_part [(LOCATION, HvStr ("/a" ++ newline))];
     Impls.status_part 201]
    default_response DefaultFormatter_ =
  (Impls.http_error_reply invalid_header_value DefaultFormatter_, None).
Proof.
  destruct (tuple_terminal_first_then_parts_short_circuit (Res := Response) (Fmt := DefaultFormatter))
    as (_ & _ & _ & H).
  exact (H [Impls.status_part PERMANENT_REDIRECT] [Impls.status_part 201]
    (Impls.headers_part [(LOCATION, HvStr ("/a" ++ newline))])
    default_response DefaultFormatter_
    (set_status PERMANENT_REDIRECT default_response) DefaultFormatter_
    (Impls.http_error_reply invalid_header_value DefaultFormatter_) eq_refl eq_refl).
Defined.

(* ================================================================== *)
(** * Further properties of the code *)

(* ------------------------------------------------------------------ *)
(** ** Method router *)

(** The route of a method helper ([get(route)], [post(route)], ...) runs
    [route] for requests of its method and answers every other method with
    [405] and an [Allow] header naming only that method. *)
Theorem method_helper_dispatch {Route} (m : string) (r : Route) (req : Request) :
  method_router_call (method_helper m r) req =
  if String.eqb (req_method req) m then Invoke r req
  else Respond (mk_response METHOD_NOT_ALLOWED [(ALLOW, m)] "").
Proof.
  unfold method_helper, method, set_method, update_allow_header, method_router_call. simpl.
  assert (Hah : allow_header_of (<[m:=r]> (∅ : gmap string Route)) = m).
  { unfold allow_header_of. rewrite insert_empty, map_to_list_singleton. reflexivity. }
  destruct (String.eqb_spec (req_method req) m) as [->|Hne].
  - by rewrite lookup_insert_eq.
  - rewrite lookup_insert_ne by congruence. rewrite lookup_empty. by rewrite Hah.
Qed.

(** Registering a route for method [m] makes requests of [m] run it
    (replacing an earlier route for [m]); requests of another method are
    dispatched as before, except that a [405] answer now lists [m] in its
    [Allow] header. *)
Theorem set_method_dispatch {Route} (mr : MethodRouter Route) (m : string) (r : Route)
    (req : Request) :
  method_router_call (set_method m r mr) req =
  if String.eqb (req_method req) m then Invoke r req
  else match method_router_call mr req with
       | Invoke r' q => Invoke r' q
       | Respond _ =>
           Respond (mk_response METHOD_NOT_ALLOWED
             [(ALLOW, allow_header_of (<[m:=r]> (handlers mr)))] "")
       end.
Proof.
  unfold set_method, update_allow_header, method_router_call.
  destruct (fallback mr) as [fr|ah] eqn:Hf; simpl;
    destruct (String.eqb_spec (req_method req) m) as [->|Hne].
  - by rewrite lookup_insert_eq.
  - rewrite lookup_insert_ne by congruence. by destruct (handlers mr !! req_method req).
  - by rewrite lookup_insert_eq.
  - rewrite lookup_insert_ne by congruence. by destruct (handlers mr !! req_method req).
Qed.

Lemma apply_op_keeps_fallback_route {Route} (mr mr' : MethodRouter Route) op r :
  fallback mr = FallbackRoute r → apply_op mr op = Some mr' → fallback mr' = FallbackRoute r.
Proof.
  intros Hf. destruct op as [m r'|other]; simpl.
  - intros [= <-]. unfold set_method, update_allow_header. simpl. by rewrite Hf.
  - unfold merge. rewrite Hf. destruct (fallback other); [discriminate|].
    intros [= <-]. reflexivity.
Qed.

(** Once a method router has a fallback route, no later [set_method] or
    (non-panicking) [merge] removes or replaces it, and the router never
    answers [405]: every request runs some route. *)
Theorem fallback_route_is_permanent {Route} (mr mr' : MethodRouter Route) (r : Route)
    (ops : list (MrOp Route)) :
  fallback mr = FallbackRoute r → run_ops mr ops = Some mr' →
  fallback mr' = FallbackRoute r ∧ ∀ req, ∃ r', method_router_call mr' req = Invoke r' req.
Proof.
  revert mr. induction ops as [|op ops IH]; intros mr Hf; simpl.
  - intros [= <-]. split; [done|]. intros req. unfold method_router_call.
    destruct (handlers mr !! req_method req) as [r'|]; [by eexists|]. rewrite Hf. by eexists.
  - destruct (apply_op mr op) as [mr1|] eqn:Hop; [|discriminate].
    apply IH. exact (apply_op_keeps_fallback_route mr mr1 op r Hf Hop).
Qed.

Lemma hashmap_extend_assoc {Route} (a b c : gmap string Route) :
  hashmap_extend (hashmap_extend a b) c = hashmap_extend a (hashmap_extend b c).
Proof.
  apply map_eq. intros k. rewrite !hashmap_extend_lookup.
  destruct (c !! k), (b !! k); reflexivity.
Qed.

(** [merge] (and so [|] and [|=]) is associative, also in whether it
    panics: [(a | b) | c] and [a | (b | c)] both panic or give the same
    router. *)
Theorem merge_assoc {Route} (a b c : MethodRouter Route) :
  match merge a b with Some ab => merge ab c | None => None end =
  match merge b c with Some bc => merge a bc | None => None end.
Proof.
  unfold merge.
  destruct (fallback a) eqn:Ea, (fallback b) eqn:Eb, (fallback c) eqn:Ec;
    simpl; rewrite ?Ea, ?Eb, ?Ec; simpl; rewrite ?hashmap_extend_assoc; reflexivity.
Qed.

Lemma hashmap_extend_empty_r {Route} (a : gmap string Route) : hashmap_extend a ∅ = a.
Proof. apply map_eq. intros k. rewrite hashmap_extend_lookup, lookup_empty. reflexivity. Qed.

Lemma hashmap_extend_empty_l {Route} (a : gmap string Route) : hashmap_extend ∅ a = a.
Proof.
  apply map_eq. intros k. rewrite hashmap_extend_lookup, lookup_empty.
  by destruct (a !! k).
Qed.

(** [MethodRouter::new()] is a unit of [merge] on both sides, for any router
    whose stored [Allow] value is the one computed from its handlers. *)
Theorem merge_new_identity {Route} (mr : MethodRouter Route) :
  allow_header_consistent mr →
  merge mr method_router_new = Some mr ∧ merge method_router_new mr = Some mr.
Proof.
  destruct mr as [hs fb]. unfold allow_header_consistent, merge. simpl.
  rewrite hashmap_extend_empty_r, hashmap_extend_empty_l.
  destruct fb as [r|ah]; intros Hc; [done|].
  rewrite (Hc ah eq_refl). done.
Qed.

Lemma hashmap_extend_comm {Route} (a b : gmap string Route) :
  a ##ₘ b → hashmap_extend a b = hashmap_extend b a.
Proof.
  intros Hd. apply map_eq. intros k. rewrite !hashmap_extend_lookup.
  destruct (a !! k) eqn:Ha, (b !! k) eqn:Hb; try reflexivity.
  exfalso. eapply map_disjoint_spec; eauto.
Qed.

(** Merging two method routers that register no method in common gives the
    same router in either order (or panics in either order). *)
Theorem merge_comm_disjoint {Route} (a b : MethodRouter Route) :
  handlers a ##ₘ handlers b → merge a b = merge b a.
Proof.
  intros Hd. unfold merge. rewrite (hashmap_extend_comm _ _ Hd).
  destruct (fallback a), (fallback b); reflexivity.
Qed.

(* ------------------------------------------------------------------ *)
(** ** Router builder *)

Lemma push_all_app {Route} (l1 l2 : list (string * Route)) :
  RouterBuilder.push_all l1 l2 = (l1 ++ l2)%list.
Proof.
  revert l1. induction l2 as [|pr l2 IH]; intros l1; simpl.
  - by rewrite app_nil_r.
  - rewrite IH, <- app_assoc. reflexivity.
Qed.

(** [RouterBuilder::merge] keeps [self]'s routes followed by the other
    builder's routes, each in registration order, and panics exactly when
    both builders have a default route (otherwise the one that is set is
    kept); a route registered on the other builder ends up last, as if
    registered after the merge. *)
Theorem router_builder_merge_routes_and_default {Route} (a b : RouterBuilder.RouterBuilder Route) :
  RouterBuilder.merge a b =
    match RouterBuilder.default a, RouterBuilder.default b with
    | Some _, Some _ => None
    | da, db => Some (RouterBuilder.mk_router_builder
                  (RouterBuilder.routes a ++ RouterBuilder.routes b)%list
                  (match db with Some r => Some r | None => da end))
    end ∧
  ∀ path h, RouterBuilder.merge a (RouterBuilder.route path h b) =
            option_map (RouterBuilder.route path h) (RouterBuilder.merge a b).
Proof.
  destruct a as [ra da], b as [rb db]. unfold RouterBuilder.merge, RouterBuilder.route. simpl.
  split.
  - rewrite push_all_app. by destruct da, db.
  - intros path h. simpl. rewrite !push_all_app, app_assoc. by destruct da, db.
Qed.

(** [Router::builder()] is a unit of [RouterBuilder::merge] on both sides,
    and [merge] is associative, also in whether it panics. *)
Theorem router_builder_merge_monoid {Route} (a b c : RouterBuilder.RouterBuilder Route) :
  RouterBuilder.merge RouterBuilder.builder a = Some a ∧
  RouterBuilder.merge a RouterBuilder.builder = Some a ∧
  match RouterBuilder.merge a b with Some ab => RouterBuilder.merge ab c | None => None end =
  match RouterBuilder.merge b c with Some bc => RouterBuilder.merge a bc | None => None end.
Proof.
  destruct a as [ra da], b as [rb db], c as [rc dc].
  unfold RouterBuilder.merge, RouterBuilder.builder. simpl.
  split; [rewrite push_all_app; by destruct da|]. split; [by destruct da|].
  destruct da, db, dc; simpl; rewrite ?push_all_app, ?app_assoc; reflexivity.
Qed.

(* ------------------------------------------------------------------ *)
(** ** Path routing, request extensions *)

Lemma strip_suffix_slash_some (s p : string) : strip_suffix_slash s = Some p → s = p ++ "/".
Proof.
  revert p. induction s as [|c t IH]; intros p; [discriminate|].
  destruct t as [|c' t'].
  - simpl. destruct (Ascii.eqb_spec c "/"%char) as [->|]; [|discriminate].
    intros [= <-]. reflexivity.
  - change (option_map (String c) (strip_suffix_slash (String c' t')) = Some p →
            String c (String c' t') = p ++ "/").
    destruct (strip_suffix_slash (String c' t')) as [p'|] eqn:E; [|discriminate].
    intros [= <-]. rewrite string_app_cons. f_equal. by apply IH.
Qed.

Lemma strip_suffix_slash_none (s : string) :
  strip_suffix_slash s = None ↔ ∀ p, s ≠ p ++ "/".
Proof.
  split.
  - intros H p ->. by rewrite strip_suffix_slash_app in H.
  - intros H. destruct (strip_suffix_slash s) as [p|] eqn:E; [|done].
    exfalso. exact (H p (strip_suffix_slash_some _ _ E)).
Qed.

Section RouterExtra.
Context {Route Fut Fmt : Type}.
Variable handler_fn : Route -> Request -> Fmt -> Fut.
Context `{Formatter Fmt RouteError Response}.

(** A route runs only on an exact trie match whose captures all decode, or
    on a total miss with a default route. The request it runs on has the
    original method and uri and the connection address, so
    [remote_address()] never panics in a route; [params()] returns the
    decoded captures after an exact match, and panics in the default route
    (for a request that came in without parameters). *)
Theorem routed_request_extensions (router : RouterImpl Route) (fmt : Fmt) (addr : string)
    (req : Request) (fut : Fut) :
  params req = None →
  call handler_fn router fmt addr req = Some (RequestFuture_Route fut) →
  ∃ r req', fut = handler_fn r req' fmt ∧
    req_method req' = req_method req ∧ req_uri req' = req_uri req ∧
    remote_address req' = Some addr ∧
    match inner router (uri_path (req_uri req)) with
    | Ok (r0, ps) => r = r0 ∧ ∃ m, route_params_try_from ps = Ok m ∧ params req' = Some m
    | Err MatchNotFound => default router = Some r ∧ params req' = None
    | Err _ => False
    end.
Proof.
  intros Hp. unfold call. simpl.
  destruct (inner router (uri_path (req_uri req))) as [[r0 ps]|[| |]] eqn:Hm.
  - destruct (route_params_try_from ps) as [m|e] eqn:Ht; [|discriminate].
    intros [= <-]. eexists _, _. split; [reflexivity|]. simpl. eauto 10.
  - destruct (default router) as [d|] eqn:Hd; [|discriminate].
    intros [= <-]. eexists _, _. split; [reflexivity|]. simpl. eauto 10.
  - destruct (strip_suffix_slash _); discriminate.
  - discriminate.
Qed.

(** The only panic of [RequestService::call] is the [unwrap] of
    [strip_suffix('/')]: it happens exactly when the trie reports an extra
    trailing slash for a path that does not end in ['/']. Likewise the only
    panic of the route error reply of [src/response/impls.rs] is on an
    [ExtraTrailingSlash] error for such a path. *)
Theorem call_panics_only_on_unstrippable_slash (router : RouterImpl Route) (fmt : Fmt)
    (addr : string) (req : Request) :
  (call handler_fn router fmt addr req = None ↔
     inner router (uri_path (req_uri req)) = Err MatchExtraTrailingSlash ∧
     ∀ p, uri_path (req_uri req) ≠ p ++ "/") ∧
  (∀ kind (f : DefaultFormatter), Impls.reply_route_error req kind f = None ↔
     kind = Impls.ExtraTrailingSlash ∧ ∀ p, uri_path (req_uri req) ≠ p ++ "/").
Proof.
  split.
  - rewrite <- strip_suffix_slash_none. unfold call. simpl.
    destruct (inner router (uri_path (req_uri req))) as [[r0 ps]|[| |]];
      [destruct (route_params_try_from ps) | destruct (default router)
      | destruct (strip_suffix_slash (uri_path (req_uri req))) | ];
      (split; [intros Hx; try discriminate; split; reflexivity
              | intros [Hx1 Hx2]; try discriminate; reflexivity]).
  - intros kind f. rewrite <- strip_suffix_slash_none. unfold Impls.reply_route_error.
    destruct kind; [| destruct (strip_suffix_slash (uri_path (req_uri req))) | |]; simpl;
      (split; [intros Hx; try discriminate; split; reflexivity
              | intros [Hx1 Hx2]; try discriminate; reflexivity]).
Qed.

End RouterExtra.

(** With the default formatter, [RequestService::call] answers every routing
    error with status [500], a single [content-type: text/plain] header (no
    [Location], even for a trailing-slash near miss) and the error's message
    as body: ["not found"], ["expected uri: "] followed by the corrected
    uri, or the invalid parameter message naming the key. *)
Theorem default_formatter_route_errors_are_500 {Route Fut}
    (handler_fn : Route → Request → DefaultFormatter → Fut) (router : RouterImpl Route)
    (addr : string) (req : Request) (res : Response) :
  call handler_fn router DefaultFormatter_ addr req = Some (RequestFuture_Response (Some res)) →
  status res = INTERNAL_SERVER_ERROR ∧ headers res = [(CONTENT_TYPE, TEXT_PLAIN)] ∧
  match inner router (uri_path (req_uri req)) with
  | Ok (_, ps) => ∃ e, route_params_try_from ps = Err e ∧
      body res = "invalid param encoding: invalid param encoding for key `" ++ invalid_key e ++ "`"
  | Err MatchNotFound => default router = None ∧ body res = "not found"
  | Err MatchExtraTrailingSlash => ∃ p, uri_path (req_uri req) = p ++ "/" ∧
      body res = "expected uri: " ++ uri_to_string (replace_path (req_uri req) p)
  | Err MatchMissingTrailingSlash =>
      body res = "expected uri: " ++
        uri_to_string (replace_path (req_uri req) (uri_path (req_uri req) ++ "/"))
  end.
Proof.
  unfold call. simpl.
  destruct (inner router (uri_path (req_uri req))) as [[r0 ps]|[| |]] eqn:Hm.
  - destruct (route_params_try_from ps) as [m|e] eqn:Ht; [discriminate|].
    intros [= <-]. split; [reflexivity|]. split; [reflexivity|]. eexists; split; reflexivity.
  - destruct (default router) as [d|] eqn:Hd; [discriminate|].
    intros [= <-]. split; [reflexivity|]. split; [reflexivity|]. split; reflexivity.
  - destruct (strip_suffix_slash (uri_path (req_uri req))) as [p|] eqn:Hs; [|discriminate].
    intros [= <-]. split; [reflexivity|]. split; [reflexivity|].
    exists p. split; [by apply strip_suffix_slash_some|reflexivity].
  - intros [= <-]. split; [reflexivity|]. split; reflexivity.
Qed.

(* ------------------------------------------------------------------ *)
(** ** Path parameters *)

Lemma collect_params_distinct (acc m : gmap string string) (ps : list (string * string)) :
  NoDup ps.*1 → collect_params acc ps = Ok m →
  (∀ k raw, (k, raw) ∈ ps → m !! k = decode_utf8 raw) ∧
  (∀ k, k ∉ ps.*1 → m !! k = acc !! k).
Proof.
  revert acc. induction ps as [|[k raw] ps IH]; intros acc Hnd; simpl.
  - intros [= <-]. split; [|done]. intros k raw Hin. by apply elem_of_nil in Hin.
  - unfold decode_param; simpl. destruct (decode_utf8 raw) as [d|] eqn:Hd; [|discriminate].
    intros Hc. apply NoDup_cons in Hnd as [Hk Hnd].
    destruct (IH _ Hnd Hc) as [Hin Hout]. split.
    + intros k' raw' Hk'. apply elem_of_cons in Hk' as [[= -> ->]|Hk']; [|by apply Hin].
      rewrite Hout by done. by rewrite lookup_insert_eq.
    + intros k' Hk'. change (k' ∉ k :: ps.*1) in Hk'. rewrite elem_of_cons in Hk'.
      rewrite Hout by tauto. rewrite lookup_insert_ne; [done|]. intros ->. tauto.
Qed.

(** After [RouteParamsExt::try_from] succeeds on captures with distinct
    names, [RouteParams::get(k)] returns the percent-decoded value of the
    capture named [k], and [None] for a name that was not captured. *)
Theorem route_params_get_decoded (ps : list (string * string)) (m : gmap string string) :
  NoDup ps.*1 → route_params_try_from ps = Ok m →
  (∀ k raw, (k, raw) ∈ ps → RouteParams.get m k = decode_utf8 raw) ∧
  (∀ k, k ∉ ps.*1 → RouteParams.get m k = None).
Proof.
  intros Hnd Ht. destruct (collect_params_distinct ∅ m ps Hnd Ht) as [Hin Hout].
  split; [exact Hin|]. intros k Hk. unfold RouteParams.get. by rewrite Hout, lookup_empty.
Qed.

Lemma percent_decode_plain (s : string) :
  (∀ c, c ∈ list_ascii_of_string s → c ≠ "%"%char) → percent_decode s = s.
Proof.
  induction s as [|c t IH]; intros H; [done|]. simpl.
  destruct (Ascii.eqb_spec c "%"%char) as [->|Hc].
  - exfalso. apply (H "%"%char); [apply elem_of_cons; by left|done].
  - f_equal. apply IH. intros c' Hc'. apply H. apply elem_of_cons. by right.
Qed.

(** A capture value that is valid UTF-8 and contains no ['%'] decodes to
    itself: ordinary captures reach the handler unchanged. *)
Theorem decode_utf8_plain_capture (s : string) :
  (∀ c, c ∈ list_ascii_of_string s → c ≠ "%"%char) → utf8_valid s = true →
  decode_utf8 s = Some s.
Proof. intros Hs Hu. unfold decode_utf8. rewrite percent_decode_plain by done. by rewrite Hu. Qed.

Lemma percent_decode_encode_byte (c : ascii) (t : string) :
  percent_decode (percent_encode_byte c ++ t) = String c (percent_decode t).
Proof. destruct c as [[] [] [] [] [] [] [] []]; reflexivity. Qed.

(** Percent-decoding undoes percent-encoding: any byte string written fully
    as [%HH] escapes decodes back to itself, and [decode_utf8] accepts it
    exactly when those bytes are UTF-8. *)
Theorem percent_encoding_round_trip (s : string) :
  percent_decode (percent_encode_all s) = s ∧
  decode_utf8 (percent_encode_all s) = if utf8_valid s then Some s else None.
Proof.
  assert (Hd : percent_decode (percent_encode_all s) = s).
  { induction s as [|c t IH]; [done|].
    change (percent_decode (percent_encode_byte c ++ percent_encode_all t) = String c t).
    by rewrite percent_decode_encode_byte, IH. }
  split; [exact Hd|]. unfold decode_utf8. by rewrite Hd.
Qed.

(* ------------------------------------------------------------------ *)
(** ** Replies and response parts *)

Lemma filter_header_remove (hs : list (string * string)) (k k' : string) :
  filter (λ kv : string * string, kv.1 = k') (header_remove hs k) =
  if String.eqb k k' then [] else filter (λ kv : string * string, kv.1 = k') hs.
Proof.
  induction hs as [|[k0 v0] hs IH]; simpl.
  - by destruct (String.eqb k k').
  - destruct (String.eqb_spec k k0) as [Hk|Hne]; [subst k0|].
    + rewrite IH. destruct (String.eqb_spec k k') as [Hk'|Hne']; [done|].
      rewrite filter_cons_False; [done|simpl; congruence].
    + rewrite !filter_cons. simpl. rewrite IH.
      destruct (String.eqb_spec k k') as [Hk'|Hne']; [subst k'|done].
      rewrite decide_False; [done|congruence].
Qed.

Lemma filter_header_insert (hs : list (string * string)) (k v k' : string) :
  filter (λ kv : string * string, kv.1 = k') (header_insert hs k v) =
  if String.eqb k k' then [(k, v)] else filter (λ kv : string * string, kv.1 = k') hs.
Proof.
  induction hs as [|[k0 v0] hs IH]; simpl.
  - rewrite filter_cons. simpl.
    destruct (String.eqb_spec k k') as [Hk'|Hne]; [subst k'; by rewrite decide_True|].
    rewrite decide_False; [done|congruence].
  - destruct (String.eqb_spec k k0) as [Hk|Hne]; [subst k0|].
    + rewrite !filter_cons. simpl. rewrite filter_header_remove.
      destruct (String.eqb_spec k k') as [Hk'|Hne']; [subst k'; by rewrite decide_True|].
      rewrite !decide_False; [done|congruence..].
    + rewrite !filter_cons. simpl. rewrite IH.
      destruct (String.eqb_spec k k') as [Hk'|Hne']; [subst k'|done].
      rewrite decide_False; [done|congruence].
Qed.

Lemma header_get_app (l : list (string * string)) (x : string * string) (k : string) :
  header_get (l ++ [x])%list k =
  match header_get l k with
  | Some v => Some v
  | None => if String.eqb k x.1 then Some x.2 else None
  end.
Proof.
  destruct x as [k1 v1]. induction l as [|[k0 v0] l IH]; simpl; [done|].
  destruct (String.eqb k k0); [done|exact IH].
Qed.

Lemma filter_fold_header_insert (kvs : list (string * HeaderInput)) (hs : list (string * string))
    (k : string) :
  filter (λ kv : string * string, kv.1 = k)
    (fold_left (λ hs kv, header_insert hs kv.1 (hv_text kv.2)) kvs hs) =
  match header_get (rev (map (λ kv, (kv.1, hv_text kv.2)) kvs)) k with
  | Some v => [(k, v)]
  | None => filter (λ kv : string * string, kv.1 = k) hs
  end.
Proof.
  revert hs. induction kvs as [|[k0 v0] kvs IH]; intros hs; simpl; [done|].
  rewrite IH, header_get_app. simpl. destruct (header_get _ k); [done|].
  rewrite filter_header_insert.
  destruct (String.eqb_spec k0 k) as [->|Hne]; [by rewrite String.eqb_refl|].
  destruct (String.eqb_spec k k0); [congruence|done].
Qed.

Lemma headers_part_kv_eq (kvs : list (NameInput * HeaderInput)) (res : Response)
    (fmt : DefaultFormatter) :
  Impls.headers_part_kv kvs res fmt =
    match header_array_error kvs with
    | Some e => (Impls.http_error_reply e fmt, None)
    | None => (mk_response (status res)
                 (fold_left (λ hs kv, header_insert hs kv.1 (hv_text kv.2))
                    (header_array_text kvs) (headers res))
                 (body res), Some fmt)
    end.
Proof.
  revert res. induction kvs as [|[k v] kvs IH]; intros res; simpl.
  - by destruct res.
  - unfold hn_text at 1. destruct (header_name_try k) as [e|k']; [reflexivity|].
    destruct v as [s|s]; simpl.
    + rewrite IH. reflexivity.
    + destruct (header_value_ok s); simpl; [|reflexivity]. rewrite IH. reflexivity.
Qed.

Lemma headers_part_typed (kvs : list (string * HeaderInput)) (res : Response) (fmt : DefaultFormatter) :
  Impls.headers_part kvs res fmt = Impls.headers_part_kv (map (λ kv, (HnName kv.1, kv.2)) kvs) res fmt.
Proof.
  revert res. induction kvs as [|[k v] kvs IH]; intros res; simpl; [done|].
  destruct (header_value_try v); [reflexivity|]. apply IH.
Qed.

Lemma header_name_map_lower (s k : string) :
  header_name_map s = Some k → forallb (λ c, negb (Nat.leb 65 (nat_of_ascii c) && Nat.leb (nat_of_ascii c) 90)) (list_ascii_of_string k) = true.
Proof.
  revert k. induction s as [|c s IH]; intros k H; simpl in H.
  - by injection H as <-.
  - destruct (header_name_char c) as [c'|] eqn:Hc; [|discriminate].
    destruct (header_name_map s) as [t|] eqn:Ht; [|discriminate].
    injection H as <-. cbn [list_ascii_of_string forallb]. rewrite (IH t eq_refl), andb_true_r.
    unfold header_name_char in Hc.
    destruct c as [b0 b1 b2 b3 b4 b5 b6 b7].
    destruct b0, b1, b2, b3, b4, b5, b6, b7; vm_compute in Hc;
      try discriminate; injection Hc as <-; reflexivity.
Qed.

(** A header array part ([[(K, V); N]], names and values converted with
    [try_into]) either inserts every pair, so that each converted name ends
    up with exactly one entry, holding the last value the array gives for
    it, with status, body and the other headers kept; or, at the first name
    that is not a valid header name or value that is not a valid header
    value, replaces the whole response by that error's [500] reply and stops
    the tuple. A name given as a string is stored lower-cased, and typed
    [HeaderName] keys ([headers_part]) are the case where no name fails. *)
Theorem header_array_part_insert_or_fail (kvs : list (NameInput * HeaderInput)) (res : Response)
    (fmt : DefaultFormatter) :
  Impls.headers_part_kv kvs res fmt =
    match header_array_error kvs with
    | Some e => (Impls.http_error_reply e fmt, None)
    | None => (mk_response (status res)
                 (fold_left (λ hs kv, header_insert hs kv.1 (hv_text kv.2))
                    (header_array_text kvs) (headers res))
                 (body res), Some fmt)
    end ∧
  (∀ k, filter (λ kv : string * string, kv.1 = k)
          (fold_left (λ hs kv, header_insert hs kv.1 (hv_text kv.2))
             (header_array_text kvs) (headers res)) =
        match header_get (rev (map (λ kv, (kv.1, hv_text kv.2)) (header_array_text kvs))) k with
        | Some v => [(k, v)]
        | None => filter (λ kv : string * string, kv.1 = k) (headers res)
        end) ∧
  (∀ s k, header_name_try (HnStr s) = inr k →
     forallb (λ c, negb (Nat.leb 65 (nat_of_ascii c) && Nat.leb (nat_of_ascii c) 90))
       (list_ascii_of_string k) = true) ∧
  (∀ kvs' : list (string * HeaderInput),
     Impls.headers_part kvs' res fmt = Impls.headers_part_kv (map (λ kv, (HnName kv.1, kv.2)) kvs') res fmt).
Proof.
  split; [apply headers_part_kv_eq|]. split; [intros k; apply filter_fold_header_insert|].
  split; [|intros kvs'; apply headers_part_typed].
  intros s k. unfold header_name_try, header_name_parse.
  destruct (_ && _); [|discriminate].
  destruct (header_name_map s) as [k'|] eqn:Hs; [|discriminate].
  intros [= <-]. by apply (header_name_map_lower s).
Qed.

(** The [MethodNotAllowed] reply of [src/response/impls.rs] is the [405]
    answer the method router of [src/method.rs] gives: status [405], one
    [Allow] header with the stored value, empty body. *)
Theorem method_not_allowed_reply_matches_405 {Route} (mr : MethodRouter Route) (req : Request)
    (ah : string) (fmt : DefaultFormatter) :
  fallback mr = FallbackNone ah → handlers mr !! req_method req = None →
  method_router_call mr req = Respond (method_not_allowed_reply ah fmt) ∧
  method_not_allowed_reply ah fmt = mk_response METHOD_NOT_ALLOWED [(ALLOW, ah)] "".
Proof. intros Hf Hh. unfold method_router_call. rewrite Hh, Hf. split; reflexivity. Qed.

(** An [http::Error] (and the [InvalidHeaderValue], [InvalidUri], ... errors
    converted into it) is replied with status [500], a [text/plain] content
    type and its message as body; the [IntoResponse] of
    [src/response/mod.rs] gives the same status and body but no content
    type. *)
Theorem http_error_reply_500_text_plain (e : HttpError) (fmt : DefaultFormatter) :
  Impls.http_error_reply e fmt =
    mk_response INTERNAL_SERVER_ERROR [(CONTENT_TYPE, TEXT_PLAIN)] (http_error_msg e) ∧
  (into_response e fmt : Response) = mk_response INTERNAL_SERVER_ERROR [] (http_error_msg e).
Proof. split; reflexivity. Qed.

(** Grouping consecutive parts into a nested tuple, anywhere among the
    leading parts, does not change a response: [(a, (b, c), d, r)] behaves
    as [(a, b, c, d, r)], also in where it stops on a failing part; and a
    tuple with no leading part behaves as its one-element form [(r,)]. *)
Theorem nested_part_tuples_flatten {Res Fmt} (ps0 ps1 ps2 : list (Part Res Fmt))
    (r : Terminal Res Fmt) (res : Res) (fmt : Fmt) :
  apply_parts (ps0 ++ tuple_part ps1 :: ps2)%list res fmt =
    apply_parts (ps0 ++ ps1 ++ ps2)%list res fmt ∧
  tuple_into_response (ps0 ++ tuple_part ps1 :: ps2)%list r fmt =
    tuple_into_response (ps0 ++ ps1 ++ ps2)%list r fmt ∧
  tuple_into_response [] r fmt = single_into_response r fmt.
Proof.
  assert (Hf : ∀ res' fmt', apply_parts (tuple_part ps1 :: ps2) res' fmt' =
                            apply_parts (ps1 ++ ps2)%list res' fmt').
  { intros res' fmt'. rewrite apply_parts_app. simpl. unfold tuple_part.
    by destruct (apply_parts ps1 res' fmt') as [? [?|]]. }
  assert (Hg : ∀ res' fmt', apply_parts (ps0 ++ tuple_part ps1 :: ps2)%list res' fmt' =
                            apply_parts (ps0 ++ ps1 ++ ps2)%list res' fmt').
  { intros res' fmt'. rewrite !apply_parts_app.
    destruct (apply_parts ps0 res' fmt') as [? [?|]]; [apply Hf|reflexivity]. }
  split; [apply Hg|]. split.
  - unfold tuple_into_response. destruct (respond (r fmt)) as [[res' fmt']|ret]; [apply Hg|reflexivity].
  - unfold tuple_into_response, single_into_response. destruct (r fmt) as [? [?|]]; reflexivity.
Qed.

(** The two trailing-slash corrections undo each other: for a non-empty
    path [p] without ['?'], stripping the slash of [p/] and then appending
    one gives back the original uri, and appending one to [p] and then
    stripping it does too. *)
Theorem replace_path_slash_round_trip (u : Uri) (p : string) (q : option string) :
  split_query p = (p, None) → p ≠ "" →
  (uri_path_and_query u = Some (p ++ "/", q) →
     uri_path (replace_path u p) = p ∧
     replace_path (replace_path u p) (uri_path (replace_path u p) ++ "/") = u) ∧
  (uri_path_and_query u = Some (p, q) →
     strip_suffix_slash (uri_path (replace_path u (p ++ "/"))) = Some p ∧
     replace_path (replace_path u (p ++ "/")) p = u).
Proof.
  intros Hp Hne.
  assert (Hp' : split_query (p ++ "/") = (p ++ "/", None)).
  { rewrite (split_query_app _ _ Hp). reflexivity. }
  assert (Hne' : p ++ "/" ≠ "") by (destruct p; discriminate).
  destruct u as [sc au pq]. simpl. split; intros ->.
  - rewrite (replace_path_query (mk_uri sc au (Some (p ++ "/", q))) (p ++ "/") p q eq_refl Hp).
    unfold uri_path at 1 2. simpl. rewrite nonempty_path by done. split; [done|].
    exact (replace_path_query (mk_uri sc au (Some (p, q))) p (p ++ "/") q eq_refl Hp').
  - rewrite (replace_path_query (mk_uri sc au (Some (p, q))) p (p ++ "/") q eq_refl Hp').
    unfold uri_path. simpl. rewrite nonempty_path by done.
    split; [apply strip_suffix_slash_app|].
    exact (replace_path_query (mk_uri sc au (Some (p ++ "/", q))) (p ++ "/") p q eq_refl Hp).
Qed.

(* ------------------------------------------------------------------ *)
(** ** Concrete instances of the further properties *)

Lemma fallback_route_is_permanent_witness :
  match run_ops (set_fallback 0%nat method_router_new)
          [OpSetMethod "GET" 1%nat; OpMerge (method_helper "POST" 2%nat)] with
  | Some mr' => fallback mr' = FallbackRoute 0%nat ∧
                ∀ req, ∃ r', method_router_call mr' req = Invoke r' req
  | None => False
  end.
Proof.
  destruct (run_ops (set_fallback 0%nat method_router_new)
              [OpSetMethod "GET" 1%nat; OpMerge (method_helper "POST" 2%nat)]) as [mr'|] eqn:E.
  - exact (fallback_route_is_permanent (set_fallback 0%nat method_router_new) mr' 0%nat _ eq_refl E).
  - vm_compute in E. discriminate.
Defined.

Lemma merge_new_identity_witness :
  merge (method_helper "GET" 1%nat) method_router_new = Some (method_helper "GET" 1%nat) ∧
  merge method_router_new (method_helper "GET" 1%nat) = Some (method_helper "GET" 1%nat).
Proof.
  apply merge_new_identity. intros ah Hah. vm_compute in Hah. injection Hah as <-.
  vm_compute. reflexivity.
Defined.

Lemma merge_comm_disjoint_witness :
  merge (method_helper "GET" 1%nat) (method_helper "POST" 2%nat) =
  merge (method_helper "POST" 2%nat) (method_helper "GET" 1%nat).
Proof.
  apply merge_comm_disjoint.
  change (<["GET" := 1%nat]> (∅ : gmap string nat) ##ₘ <["POST" := 2%nat]> (∅ : gmap string nat)).
  rewrite !insert_empty. apply map_disjoint_singleton_l. vm_compute. reflexivity.
Defined.

Lemma routed_request_extensions_witness :
  ∃ r req', (9%nat, with_addr (demo_request "/nope") "10.0.0.1:80") = demo_handler r req' DefaultFormatter_ ∧
    req_method req' = "GET" ∧ req_uri req' = demo_uri "/nope" None ∧
    remote_address req' = Some "10.0.0.1:80" ∧
    (Some 9%nat = Some r ∧ params req' = None).
Proof.
  exact (routed_request_extensions demo_handler
    (mk_router_impl (fun _ => Err MatchNotFound) (Some 9%nat)) DefaultFormatter_ "10.0.0.1:80"
    (demo_request "/nope") (9%nat, with_addr (demo_request "/nope") "10.0.0.1:80") eq_refl eq_refl).
Defined.

Lemma default_formatter_route_errors_are_500_witness :
  status (mk_response INTERNAL_SERVER_ERROR [(CONTENT_TYPE, TEXT_PLAIN)] "not found") = INTERNAL_SERVER_ERROR ∧
  headers (mk_response INTERNAL_SERVER_ERROR [(CONTENT_TYPE, TEXT_PLAIN)] "not found") = [(CONTENT_TYPE, TEXT_PLAIN)] ∧
  (@None nat = None ∧ body (mk_response INTERNAL_SERVER_ERROR [(CONTENT_TYPE, TEXT_PLAIN)] "not found") = "not found").
Proof.
  exact (default_formatter_route_errors_are_500 demo_handler
    (mk_router_impl (fun _ => Err MatchNotFound) None) "10.0.0.1:80" (demo_request "/nope")
    (mk_response INTERNAL_SERVER_ERROR [(CONTENT_TYPE, TEXT_PLAIN)] "not found") eq_refl).
Defined.

Lemma route_params_get_decoded_witness :
  RouteParams.get (<["b" := "42"]> (<["a" := "x y"]> ∅)) "a" = Some "x y" ∧
  RouteParams.get (<["b" := "42"]> (<["a" := "x y"]> ∅)) "c" = None.
Proof.
  destruct (route_params_get_decoded [("a", "x%20y"); ("b", "42")]
              (<["b" := "42"]> (<["a" := "x y"]> ∅)))
    as [Hin Hout]; [repeat constructor; set_solver | vm_compute; reflexivity |].
  split.
  - rewrite (Hin "a" "x%20y"); [vm_compute; reflexivity|apply elem_of_cons; by left].
  - apply Hout. intros Hc. simpl in Hc.
    repeat (apply elem_of_cons in Hc as [Hc|Hc]; [discriminate|]). by apply elem_of_nil in Hc.
Defined.

Lemma decode_utf8_plain_capture_witness :
  decode_utf8 "items-42" = Some "items-42".
Proof.
  apply decode_utf8_plain_capture; [|reflexivity].
  intros c Hc. simpl in Hc.
  repeat (apply elem_of_cons in Hc as [->|Hc]; [discriminate|]). by apply elem_of_nil in Hc.
Defined.

Lemma method_not_allowed_reply_matches_405_witness :
  method_router_call (method_helper "GET" 1%nat) (mk_request "POST" (demo_uri "/x" None) None None) =
    Respond (method_not_allowed_reply "GET" DefaultFormatter_) ∧
  method_not_allowed_reply "GET" DefaultFormatter_ = mk_response METHOD_NOT_ALLOWED [(ALLOW, "GET")] "".
Proof.
  apply method_not_allowed_reply_matches_405; vm_compute; reflexivity.
Defined.

Lemma replace_path_slash_round_trip_witness :
  uri_path (replace_path (demo_uri "/items/" (Some "a=1")) "/items") = "/items" ∧
  replace_path (replace_path (demo_uri "/items/" (Some "a=1")) "/items")
    (uri_path (replace_path (demo_uri "/items/" (Some "a=1")) "/items") ++ "/") =
  demo_uri "/items/" (Some "a=1").
Proof.
  destruct (replace_path_slash_round_trip (demo_uri "/items/" (Some "a=1")) "/items" (Some "a=1")
              eq_refl ltac:(discriminate)) as [H _].
  exact (H eq_refl).
Defined.

Lemma header_array_part_insert_or_fail_witness :
  Impls.headers_part_kv [(HnStr "X-Id", HvStr "1"); (HnName ALLOW, HvValue "GET"); (HnStr "x-id", HvStr "2")]
    default_response DefaultFormatter_ =
  (mk_response 200 [("x-id", "2"); (ALLOW, "GET")] "", Some DefaultFormatter_) ∧
  Impls.headers_part_kv [(HnName ALLOW, HvValue "GET"); (HnStr "bad key", HvStr "1"); (HnStr "x", HvStr "2")]
    default_response DefaultFormatter_ =
  (mk_response INTERNAL_SERVER_ERROR [(CONTENT_TYPE, TEXT_PLAIN)] "invalid HTTP header name", None).
Proof.
  split.
  - destruct (header_array_part_insert_or_fail
                [(HnStr "X-Id", HvStr "1"); (HnName ALLOW, HvValue "GET"); (HnStr "x-id", HvStr "2")]
                default_response DefaultFormatter_) as [H _].
    rewrite H. vm_compute. reflexivity.
  - destruct (header_array_part_insert_or_fail
                [(HnName ALLOW, HvValue "GET"); (HnStr "bad key", HvStr "1"); (HnStr "x", HvStr "2")]
                default_response DefaultFormatter_) as [H _].
    rewrite H. vm_compute. reflexivity.
Defined.

Lemma http_error_reply_500_text_plain_witness :
  Impls.http_error_reply (mk_http_error "invalid header value") DefaultFormatter_ =
    mk_response INTERNAL_SERVER_ERROR [(CONTENT_TYPE, TEXT_PLAIN)] "invalid header value".
Proof.
  exact (proj1 (http_error_reply_500_text_plain (mk_http_error "invalid header value") DefaultFormatter_)).
Defined.



